(** * Dynamic beta-schedule KL controller (recipe/exploration/dynamic_beta_kl.py)

    A shallow embedding of [DynamicBetaKLController] and the properties its
    specification states about it.

    Numbers.  The specification speaks of real numbers; the embedding computes
    with exact rationals [Q], so rounding of the float32/float64 operations
    is not represented.  One non-real outcome of the arithmetic is kept, because
    the code can reach it with real inputs: the division [pos / pos_sum] is
    0/0 when [eps < 0] and the group has no positive deviation, and numpy
    evaluates it to nan, which then propagates to [value].  Values that may be
    nan have type [npfloat].

    Errors.  Python exceptions are results [Raise e]; the only one the class can
    raise on numeric input is the [IndexError] of the fancy index [r[idxs]]. *)

From Stdlib Require Import List ZArith QArith Qminmax Lia Lqa Permutation Bool.
From Stdlib Require Import Sorted NArith.
From Stdlib Require String Ascii.
From Equations Require Import Equations.
Import ListNotations.
Open Scope Q_scope.

(** ** Python results *)

Inductive exn : Set := IndexError.

Inductive result (A : Type) : Type :=
| Ok (a : A)
| Raise (e : exn).
Arguments Ok {A} a.
Arguments Raise {A} e.

Definition bind {A B : Type} (m : result A) (k : A -> result B) : result B :=
  match m with
  | Ok a => k a
  | Raise e => Raise e
  end.

Notation "x <- m ;; k" := (bind m (fun x => k))
  (at level 61, m at next level, right associativity).

(** ** numpy scalars and the array operations the controller uses *)

Inductive npfloat : Type :=
| Fin (q : Q)
| NaN.

Module NP.

Definition lift2 (f : Q -> Q -> Q) (x y : npfloat) : npfloat :=
  match x, y with
  | Fin a, Fin b => Fin (f a b)
  | _, _ => NaN
  end.

Definition add : npfloat -> npfloat -> npfloat := lift2 Qplus.
Definition sub : npfloat -> npfloat -> npfloat := lift2 Qminus.
Definition mul : npfloat -> npfloat -> npfloat := lift2 Qmult.

(** [x / y].  A zero divisor gives a non-real value; the divisions of
    [update_with_stats] meet a zero divisor only as 0/0 (lemmas
    [pos_sum_zero_all_zero] and [sum_squares_pos] below), which is nan. *)
Definition div (x y : npfloat) : npfloat :=
  match x, y with
  | Fin a, Fin b => if Qeq_bool b 0 then NaN else Fin (a / b)
  | _, _ => NaN
  end.

(** An integer ([len], a count) promoted to a float. *)
Definition of_nat (n : nat) : Q := inject_Z (Z.of_nat n).

(** [a.sum()] on an array of reals. *)
Definition qsum (l : list Q) : Q := fold_right Qplus 0 l.

(** [np.sum] on an array that may hold nan. *)
Definition sum (l : list npfloat) : npfloat := fold_right add (Fin 0) l.

(** [a.mean()] on an array of reals; callers have [a] non-empty. *)
Definition qmean (l : list Q) : Q := qsum l / of_nat (length l).

(** [np.mean] on a list that may hold nan. *)
Definition mean (l : list npfloat) : npfloat :=
  div (sum l) (Fin (of_nat (length l))).

Definition maximum (x y : Q) : Q := if Qle_bool x y then y else x.
Definition minimum (x y : Q) : Q := if Qle_bool x y then x else y.

(** [np.clip(x, lo, hi)] is [minimum(maximum(x, lo), hi)]; nan stays nan. *)
Definition clip (x : npfloat) (lo hi : Q) : npfloat :=
  match x with
  | Fin q => Fin (minimum (maximum q lo) hi)
  | NaN => NaN
  end.

(** [np.clip(g, 0.0, None)], elementwise. *)
Definition clip_lo (lo : Q) (l : list Q) : list Q :=
  map (fun x => maximum x lo) l.

(** [(g > 0).mean()]: the fraction of entries that are positive. *)
Definition count_pos (l : list Q) : nat :=
  length (filter (fun x => negb (Qle_bool x 0)) l).

Definition frac_pos (l : list Q) : Q :=
  of_nat (count_pos l) / of_nat (length l).

(** [r[idxs]] with a list of indices: out of range raises. *)
Fixpoint take (r : list Q) (idxs : list nat) : result (list Q) :=
  match idxs with
  | [] => Ok []
  | i :: rest =>
      match nth_error r i with
      | None => Raise IndexError
      | Some x => xs <- take r rest ;; Ok (x :: xs)
      end
  end.

End NP.

(** ** The controller *)

Record DynamicBetaKLController : Type := mkController {
  beta_min : Q;
  beta_max : Q;
  eps : Q;
  ema_alpha : option Q;
  value : npfloat
}.

Definition set_value (self : DynamicBetaKLController) (v : npfloat)
  : DynamicBetaKLController :=
  {| beta_min := beta_min self; beta_max := beta_max self; eps := eps self;
     ema_alpha := ema_alpha self; value := v |}.

(** The default of the [eps] argument, 1e-8. *)
Definition default_eps : Q := 1 # 100000000.

(** [__init__] has no check and no raise: it stores its arguments and starts
    [value] at [beta_max].  It is given the result type of the other method so
    that statements about construction errors can be written. *)
Definition __init__ (beta_min beta_max eps : Q) (ema_alpha : option Q)
  : result DynamicBetaKLController :=
  Ok {| beta_min := beta_min; beta_max := beta_max; eps := eps;
        ema_alpha := ema_alpha; value := Fin beta_max |}.

(** *** Per-group statistics (lines 71-87) *)

(** [g = rr - rr.mean()] *)
Definition centered (rr : list Q) : list Q :=
  let mean_r := NP.qmean rr in
  map (fun x => x - mean_r) rr.

(** [R = pos / pos_sum] *)
Definition weights (pos : list Q) (pos_sum : Q) : list npfloat :=
  map (fun x => NP.div (Fin x) (Fin pos_sum)) pos.

(** [n_eff = 1.0 / np.sum(R * R)] *)
Definition n_eff (R : list npfloat) : npfloat :=
  NP.div (Fin 1) (NP.sum (map (fun x => NP.mul x x) R)).

Definition tilde_n (eps : Q) (pos : list Q) (G : nat) : npfloat :=
  let pos_sum := NP.qsum pos in
  if Qle_bool pos_sum eps then Fin 0
  else
    let R := weights pos pos_sum in
    NP.div (n_eff R) (Fin (NP.of_nat G)).

(** [s_p = 4.0 * p * (1.0 - p)] *)
Definition s_p (p : Q) : Q := 4 * p * (1 - p).

(** The body of the loop over groups for one non-empty group [rr]. *)
Definition group_score (eps : Q) (rr : list Q) : npfloat :=
  let G := length rr in
  let g := centered rr in
  let p := NP.frac_pos g in
  let pos := NP.clip_lo 0 g in
  NP.mul (Fin (s_p p)) (tilde_n eps pos G).

(** [s_batch] (lines 90-93) *)
Definition s_batch_of (s_list : list npfloat) : npfloat :=
  match s_list with
  | [] => Fin 0
  | _ :: _ => NP.mean s_list
  end.

Section Grouping.

(** Group identifiers: any hashable Python value; only equality is used. *)
Context {U : Type}.
Variable U_eq_dec : forall x y : U, {x = y} + {x <> y}.

(** [groups[uid].append(i)] on a [defaultdict(list)], which keeps its keys
    in insertion order. *)
Fixpoint groups_append (groups : list (U * list nat)) (uid : U) (i : nat)
  : list (U * list nat) :=
  match groups with
  | [] => [(uid, [i])]
  | (k, idxs) :: rest =>
      if U_eq_dec k uid then (k, idxs ++ [i]) :: rest
      else (k, idxs) :: groups_append rest uid i
  end.

(** [for i, uid in enumerate(uids_list): groups[uid].append(i)], started at
    index [i] with the dictionary [groups]. *)
Fixpoint group_indices (uids : list U) (i : nat) (groups : list (U * list nat))
  : list (U * list nat) :=
  match uids with
  | [] => groups
  | uid :: rest => group_indices rest (S i) (groups_append groups uid i)
  end.

(** [for uid, idxs in groups.items(): ... s_list.append(s)] *)
Fixpoint s_list_of (eps : Q) (r : list Q) (groups : list (U * list nat))
  : result (list npfloat) :=
  match groups with
  | [] => Ok []
  | (_, idxs) :: rest =>
      rr <- NP.take r idxs ;;
      match rr with
      | [] => s_list_of eps r rest
      | _ :: _ =>
          s_list <- s_list_of eps r rest ;;
          Ok (group_score eps rr :: s_list)
      end
  end.

(** Lines 56-96: the freshly computed, clipped [beta_t]. *)
Definition compute_beta_t (self : DynamicBetaKLController)
    (rewards : list Q) (uids : list U) : result npfloat :=
  let r := rewards in
  let groups := group_indices uids 0 [] in
  s_list <- s_list_of (eps self) r groups ;;
  let s_batch := s_batch_of s_list in
  let beta_t :=
    NP.sub (Fin (beta_max self))
           (NP.mul (Fin (beta_max self - beta_min self)) s_batch) in
  Ok (NP.clip beta_t (beta_min self) (beta_max self)).

(** [update_with_stats(rewards=..., uids=...)]: the controller after the
    call, or the exception that leaves it as it was. *)
Definition update_with_stats (self : DynamicBetaKLController)
    (rewards : list Q) (uids : list U) : result DynamicBetaKLController :=
  match rewards with
  | [] => Ok self
  | _ :: _ =>
      beta_t <- compute_beta_t self rewards uids ;;
      match ema_alpha self with
      | Some a =>
          Ok (set_value self
                (NP.add (NP.mul (Fin a) (value self))
                        (NP.mul (Fin (1 - a)) beta_t)))
      | None => Ok (set_value self beta_t)
      end
  end.

(** The controllers that completed calls of [update_with_stats] lead to from
    [st0]; a call that raises commits nothing. *)
Inductive reachable (st0 : DynamicBetaKLController)
  : DynamicBetaKLController -> Prop :=
| reach_start : reachable st0 st0
| reach_update st rewards uids st' :
    reachable st0 st ->
    update_with_stats st rewards uids = Ok st' ->
    reachable st0 st'.

End Grouping.

(** A possibly-nan value is the real [v] (up to the equality of fractions). *)
Definition is_real (x : npfloat) (v : Q) : Prop :=
  match x with
  | Fin q => q == v
  | NaN => False
  end.

(** ** The specification's formulas (its section 4.1), written over the reals

    These follow the text of the specification, not the code; the refinement
    theorem compares them with [update_with_stats]. *)

Module Spec.

Fixpoint total (xs : list Q) : Q :=
  match xs with
  | [] => 0
  | x :: xs' => x + total xs'
  end.

Definition size (xs : list Q) : Q := inject_Z (Z.of_nat (length xs)).

Definition arithmetic_mean (xs : list Q) : Q := total xs / size xs.

(** Number of entries strictly above / strictly below zero. *)
Definition above (g : list Q) : nat :=
  length (filter (fun g_i => if Qlt_le_dec 0 g_i then true else false) g).

(** Per-group reliability score of a group with rewards [r_1..r_G]. *)
Definition score (eps : Q) (r : list Q) : Q :=
  let mean_r := arithmetic_mean r in
  let g := map (fun r_i => r_i - mean_r) r in
  let p := inject_Z (Z.of_nat (above g)) / size r in
  let pos := map (fun g_i => Qmax g_i 0) g in
  let pos_sum := total pos in
  let tilde_n :=
    if Qlt_le_dec eps pos_sum then
      let R := map (fun pos_i => pos_i / pos_sum) pos in
      let n_eff := 1 / total (map (fun R_i => R_i ^ 2) R) in
      n_eff / size r
    else 0 in
  let s_p := 4 * p * (1 - p) in
  s_p * tilde_n.

(** Clamp [x] into [[lo, hi]]. *)
Definition clamp (lo hi x : Q) : Q := Qmin (Qmax x lo) hi.

Section Batch.
Context {U : Type}.
Variable U_eq_dec : forall x y : U, {x = y} + {x <> y}.

(** The rewards of the rollouts whose identifier is [u], in batch order. *)
Definition group (u : U) (rewards : list Q) (group_ids : list U) : list Q :=
  map fst
    (filter (fun x => if U_eq_dec (snd x) u then true else false)
       (combine rewards group_ids)).

(** One entry per group: the distinct identifiers of the batch. *)
Definition groups (group_ids : list U) : list U := nodup U_eq_dec group_ids.

(** The mean of the per-group scores; [0] when there is no group. *)
Definition s_batch (eps : Q) (rewards : list Q) (group_ids : list U) : Q :=
  let scores :=
    map (fun u => score eps (group u rewards group_ids)) (groups group_ids) in
  match scores with
  | [] => 0
  | _ :: _ => arithmetic_mean scores
  end.

Definition beta_t (beta_min beta_max eps : Q)
    (rewards : list Q) (group_ids : list U) : Q :=
  clamp beta_min beta_max
    (beta_max - (beta_max - beta_min) * s_batch eps rewards group_ids).
End Batch.

End Spec.

(** ** What the grouping loop computes

    The dictionary built from a list of identifiers, described directly: its
    keys are the identifiers in order of first occurrence, and each key holds
    the increasing list of the positions where it occurs. *)

Definition nonneg (x : Q) : Prop := 0 <= x.

Section GroupingSpec.

Context {U : Type}.
Variable U_eq_dec : forall x y : U, {x = y} + {x <> y}.

Fixpoint positions_from (u : U) (l : list U) (i : nat) : list nat :=
  match l with
  | [] => []
  | x :: l' =>
      if U_eq_dec x u then i :: positions_from u l' (S i)
      else positions_from u l' (S i)
  end.

Definition add_key (keys : list U) (u : U) : list U :=
  if in_dec U_eq_dec u keys then keys else keys ++ [u].

Definition first_seen (l : list U) : list U := fold_left add_key l [].

Definition groups_of (l : list U) (keys : list U) : list (U * list nat) :=
  map (fun u => (u, positions_from u l 0)) keys.

End GroupingSpec.

(** * Answer extraction and scoring (recipe/exploration/reward_custom.py)

    A Python [str] is the list of its code points.  [str.strip] depends on the
    Unicode whitespace table, taken as the parameter [isspace].  The helpers
    whose regular expressions depend on Unicode tables as well
    ([re.IGNORECASE], [\s], [\d], [str.splitlines], [str.lower]) are
    parameters of the functions that call them: [_extract_answer_last_line],
    [_normalize] and [_parse_full_int]; what is proved holds whatever they
    compute.  [int] refuses a digit string beyond the interpreter's limit with
    a [ValueError], so [_parse_full_int] may raise. *)

Module Reward.

Import String.

Definition str : Type := list N.

(** A literal of the source, as its code points. *)
Definition lit (s : string) : str :=
  map Ascii.N_of_ascii (list_ascii_of_string s).

Definition backslash : N := 92.
Definition close_brace : N := 125.

(** The literal prefix [\boxed{] of the pattern of [_extract_boxed_anywhere];
    the pattern goes on with a group of characters other than a closing
    brace, then a closing brace. *)
Definition boxed_open : str := lit "\boxed{".

Definition str_eqb (a b : str) : bool :=
  if list_eq_dec N.eq_dec a b then true else false.

(** [s] without the prefix [p], when it starts with [p]. *)
Fixpoint drop_prefix (p s : str) : option str :=
  match p, s with
  | [], _ => Some s
  | a :: p', b :: s' => if N.eqb a b then drop_prefix p' s' else None
  | _ :: _, [] => None
  end.

(** The group and the closing brace: the characters before the first closing
    brace, and what follows that brace; no match without a closing brace. *)
Fixpoint until_close (s : str) : option (str * str) :=
  match s with
  | [] => None
  | c :: s' =>
      if N.eqb c close_brace then Some ([], s')
      else
        match until_close s' with
        | Some (content, rest) => Some (c :: content, rest)
        | None => None
        end
  end.

(** The pattern matched at the start of [s]: its group and the text after
    the match. *)
Definition match_boxed (s : str) : option (str * str) :=
  match drop_prefix boxed_open s with
  | Some after => until_close after
  | None => None
  end.

Lemma drop_prefix_length (p s rest : str) :
  drop_prefix p s = Some rest ->
  List.length s = (List.length p + List.length rest)%nat.
Proof.
  revert s. induction p as [|a p IH]; intros s H; simpl in H.
  - injection H as <-. reflexivity.
  - destruct s as [|b s]; [discriminate|].
    destruct (N.eqb a b); [|discriminate]. simpl. rewrite (IH s H). reflexivity.
Qed.

Lemma until_close_length (s content rest : str) :
  until_close s = Some (content, rest) ->
  List.length s = (List.length content + 1 + List.length rest)%nat.
Proof.
  revert content. induction s as [|c s IH]; intros content H; simpl in H.
  - discriminate.
  - destruct (N.eqb c close_brace).
    + injection H as <- <-. simpl. reflexivity.
    + destruct (until_close s) as [[c' r']|]; [|discriminate].
      injection H as <- <-. simpl. rewrite (IH c' eq_refl). reflexivity.
Qed.

Lemma match_boxed_shorter (s content rest : str) :
  match_boxed s = Some (content, rest) ->
  (List.length rest < List.length s)%nat.
Proof.
  unfold match_boxed.
  destruct (drop_prefix boxed_open s) as [after|] eqn:E; [|discriminate].
  intro H. apply drop_prefix_length in E. apply until_close_length in H. lia.
Qed.

Definition inspect {A : Type} (a : A) : {b : A | a = b} := exist _ a eq_refl.

(** [re.findall] of that pattern on [text]: the groups of the leftmost
    non-overlapping matches, the scan resuming after each match. *)
Equations? findall_boxed (text : str) : list str by wf (List.length text) lt :=
  findall_boxed [] := [];
  findall_boxed (c :: s) with inspect (match_boxed (c :: s)) := {
    | exist _ (Some (content, rest)) E := content :: findall_boxed rest;
    | exist _ None _ := findall_boxed s }.
Proof. exact (match_boxed_shorter _ _ _ E). Qed.

Inductive outcome (A : Type) : Type :=
| Return (a : A)
| ValueError.
Arguments Return {A} a.
Arguments ValueError {A}.

(** [ground_truth]: a string, or a dict whose "ground_truth" entry, when
    present, is a string. *)
Inductive ground_truth : Type :=
| GtStr (s : str)
| GtDict (entry : option str).

(** [x or y] on [Optional[str]]: [None] and the empty string are falsy. *)
Definition py_or (x y : option str) : option str :=
  match x with
  | Some (_ :: _) => x
  | _ => y
  end.

Section Extraction.

Variable isspace : N -> bool.
Variable _extract_answer_last_line : str -> option str.
Variable _normalize : str -> str.
Variable _parse_full_int : str -> outcome (option str).

Fixpoint lstrip (s : str) : str :=
  match s with
  | [] => []
  | c :: s' => if isspace c then lstrip s' else s
  end.

Definition rstrip (s : str) : str := rev (lstrip (rev s)).

(** [s.strip()] *)
Definition strip (s : str) : str := rstrip (lstrip s).

Definition _extract_boxed_anywhere (text : str) : option str :=
  let matches := findall_boxed text in
  match matches with
  | [] => None
  | _ :: _ => Some (strip (last matches []))
  end.

Definition _extract_by_source (text data_source : str) : option str :=
  if str_eqb data_source (lit "math-dapo") || str_eqb data_source (lit "mcqa")
  then _extract_answer_last_line text
  else if str_eqb data_source (lit "openscience")
  then _extract_boxed_anywhere text
  else py_or (_extract_boxed_anywhere text) (_extract_answer_last_line text).

Definition _compare_pred_gt (pred gt : str) : outcome bool :=
  match _parse_full_int pred with
  | ValueError => ValueError
  | Return p_int =>
      match _parse_full_int gt with
      | ValueError => ValueError
      | Return g_int =>
          match p_int, g_int with
          | Some p, Some g => Return (str_eqb p g)
          | _, _ => Return (str_eqb (_normalize pred) (_normalize gt))
          end
      end
  end.

(** [compute_score]; [extra_info] is not read.  On strings [x or ""] and
    [str(x)] are [x]. *)
Definition compute_score (data_source solution_str : str)
    (ground_truth : ground_truth) : outcome Q :=
  let ground_truth :=
    match ground_truth with
    | GtStr s => s
    | GtDict (Some s) => s
    | GtDict None => []
    end in
  let pred := _extract_by_source solution_str data_source in
  let gt := _extract_by_source ground_truth data_source in
  match pred, gt with
  | Some pred, Some gt =>
      match _compare_pred_gt pred gt with
      | Return true => Return 1
      | Return false => Return 0
      | ValueError => ValueError
      end
  | _, _ => Return 0
  end.

End Extraction.

End Reward.

(** ** Texts made of plain runs and boxed answers *)

(** A run of characters none of which is a backslash, or [\boxed{content}]
    with no closing brace in [content]. *)
Inductive segment : Type :=
| Plain (s : Reward.str)
| Box (content : Reward.str).

Definition well_formed (seg : segment) : Prop :=
  match seg with
  | Plain s => ~ In Reward.backslash s
  | Box content => ~ In Reward.close_brace content
  end.

Fixpoint render (segs : list segment) : Reward.str :=
  match segs with
  | [] => []
  | Plain s :: rest => s ++ render rest
  | Box content :: rest =>
      Reward.boxed_open ++ content ++ Reward.close_brace :: render rest
  end.

Fixpoint boxes (segs : list segment) : list Reward.str :=
  match segs with
  | [] => []
  | Plain _ :: rest => boxes rest
  | Box content :: rest => content :: boxes rest
  end.

(** Sample inputs: blanks as the only whitespace, and helpers that find no
    last-line answer, parse no integer and normalise nothing. *)
Definition blank_only (c : N) : bool := N.eqb c 32.
Definition no_last_line (_ : Reward.str) : option Reward.str := None.
Definition no_integer (_ : Reward.str) : Reward.outcome (option Reward.str) :=
  Reward.Return None.
Definition keep_text (s : Reward.str) : Reward.str := s.

Section Samples.

Import String.

Definition sample_solution : Reward.str :=
  Reward.lit "first \boxed{1}, then \boxed{ 42 }"%string.
Definition sample_answer : Reward.str := Reward.lit "42"%string.
Definition sample_segments : list segment :=
  [Plain (Reward.lit "first "%string); Box (Reward.lit "1"%string);
   Plain (Reward.lit ", then "%string); Box (Reward.lit " 42 "%string)].
Definition openscience : Reward.str := Reward.lit "openscience"%string.

End Samples.

(** ** Auxiliary notions for the further properties *)




(** ** Controllers used in the instances below *)

Definition plain_controller : DynamicBetaKLController :=
  {| beta_min := 0; beta_max := 1; eps := default_eps; ema_alpha := None;
     value := Fin 1 |}.

Definition smoothed_controller : DynamicBetaKLController :=
  {| beta_min := 0; beta_max := 1; eps := default_eps;
     ema_alpha := Some (1 # 2); value := Fin 1 |}.


Definition smoothed_after_update : DynamicBetaKLController :=
  Eval vm_compute in
    match update_with_stats Nat.eq_dec smoothed_controller
            [1; 1; -1; -1] [0; 0; 0; 0]%nat with
    | Ok st => st
    | Raise _ => smoothed_controller
    end.

(** * Properties *)

(** ** Arithmetic of the numpy operations *)











(** Sums of rectified deviations. *)

Lemma qsum_nonneg (l : list Q) : Forall nonneg l -> 0 <= NP.qsum l.
Proof.
  induction 1 as [|x l Hx _ IH]; simpl; [lra|]. unfold nonneg in Hx. lra.
Qed.


(** A zero [pos_sum] means every rectified deviation is zero: the division
    [pos / pos_sum] by zero is 0/0 in every entry. *)
Lemma pos_sum_zero_all_zero (pos : list Q) :
  Forall nonneg pos -> NP.qsum pos == 0 -> Forall (fun x => x == 0) pos.
Proof.
  induction 1 as [|x l Hx Hl IH]; simpl; intro Hs; [constructor|].
  pose proof (qsum_nonneg l Hl). unfold nonneg in Hx.
  constructor; [lra | apply IH; lra].
Qed.







(** ** The per-group score against the specification's formula *)











(** ** The grouping loop *)

Section GroupingFacts.

Variable U : Type.
Variable U_eq_dec : forall x y : U, {x = y} + {x <> y}.

Local Abbreviation positions := (positions_from U_eq_dec).
Local Abbreviation keys_of := (first_seen U_eq_dec).
Local Abbreviation dict_of := (groups_of U_eq_dec).

Lemma positions_snoc (u v : U) (l : list U) (i : nat) :
  positions u (l ++ [v]) i
  = positions u l i ++ (if U_eq_dec v u then [(i + length l)%nat] else []).
Proof.
  revert i. induction l as [|x l IH]; intro i; simpl.
  - rewrite Nat.add_0_r. reflexivity.
  - rewrite IH. replace (S i + length l)%nat with (i + S (length l))%nat by lia.
    destruct (U_eq_dec x u); reflexivity.
Qed.

Lemma positions_absent (u : U) (l : list U) (i : nat) :
  ~ In u l -> positions u l i = [].
Proof.
  revert i. induction l as [|x l IH]; intros i Hn; simpl; [reflexivity|].
  destruct (U_eq_dec x u) as [->|_]; [exfalso; apply Hn; left; reflexivity|].
  apply IH. intro H. apply Hn. right. exact H.
Qed.

Lemma positions_range (u : U) (l : list U) (i j : nat) :
  In j (positions u l i) -> (i <= j < i + length l)%nat.
Proof.
  revert i. induction l as [|x l IH]; intros i; simpl; [tauto|].
  destruct (U_eq_dec x u).
  - intros [<-|H]; [lia | apply IH in H; lia].
  - intro H. apply IH in H. lia.
Qed.

Lemma positions_at (u : U) (l : list U) (i k : nat) :
  nth_error l k = Some u -> In (i + k)%nat (positions u l i).
Proof.
  revert i k. induction l as [|x l IH]; intros i [|k] H; simpl in *;
    try discriminate.
  - injection H as ->. destruct (U_eq_dec u u); [|congruence].
    left. lia.
  - replace (i + S k)%nat with (S i + k)%nat by lia.
    destruct (U_eq_dec x u); [right|]; apply IH; exact H.
Qed.

(** Keys in order of first occurrence. *)

Lemma keys_snoc (l : list U) (u : U) :
  keys_of (l ++ [u]) = add_key U_eq_dec (keys_of l) u.
Proof. unfold first_seen. rewrite fold_left_app. reflexivity. Qed.

Lemma keys_In (l : list U) (u : U) : In u (keys_of l) <-> In u l.
Proof.
  induction l as [|x l IH] using rev_ind; [simpl; tauto|].
  rewrite keys_snoc, in_app_iff. unfold add_key.
  destruct (in_dec U_eq_dec x (keys_of l)) as [Hin|Hout].
  - rewrite IH. simpl. split; [tauto|].
    intros [H|[<-|[]]]; [exact H | apply IH; exact Hin].
  - rewrite in_app_iff, IH. reflexivity.
Qed.

Lemma keys_NoDup (l : list U) : NoDup (keys_of l).
Proof.
  induction l as [|x l IH] using rev_ind; [constructor|].
  rewrite keys_snoc. unfold add_key.
  destruct (in_dec U_eq_dec x (keys_of l)) as [Hin|Hout]; [exact IH|].
  apply NoDup_app; [exact IH | repeat constructor; simpl; tauto|].
  intros y Hy [<-|[]]. contradiction.
Qed.


(** One [groups[uid].append(i)] on the dictionary of a prefix. *)

Lemma dict_of_other (l : list U) (uid : U) (keys : list U) :
  ~ In uid keys -> dict_of (l ++ [uid]) keys = dict_of l keys.
Proof.
  intro Hn. unfold groups_of. apply map_ext_in. intros u Hu.
  rewrite positions_snoc.
  destruct (U_eq_dec uid u) as [->|_]; [contradiction|].
  rewrite app_nil_r. reflexivity.
Qed.

Lemma groups_append_dict (l : list U) (uid : U) (keys : list U) :
  NoDup keys -> (In uid l -> In uid keys) ->
  groups_append U_eq_dec (dict_of l keys) uid (length l)
  = dict_of (l ++ [uid]) (add_key U_eq_dec keys uid).
Proof.
  unfold add_key. induction keys as [|k ks IH]; intros Hnd Hin.
  - simpl. rewrite positions_snoc.
    rewrite (positions_absent uid l 0) by tauto.
    destruct (U_eq_dec uid uid); [reflexivity | congruence].
  - inversion Hnd as [|? ? Hk Hks]; subst.
    cbn [groups_of map groups_append].
    change (map (fun u => (u, positions u l 0)) ks) with (dict_of l ks).
    destruct (U_eq_dec k uid) as [->|Hne].
    + destruct (in_dec U_eq_dec uid (uid :: ks)) as [_|Hout];
        [|exfalso; apply Hout; left; reflexivity].
      cbn [groups_of map].
      change (map (fun u => (u, positions u (l ++ [uid]) 0)) ks)
        with (dict_of (l ++ [uid]) ks).
      rewrite dict_of_other by exact Hk. rewrite positions_snoc.
      destruct (U_eq_dec uid uid); [reflexivity | congruence].
    + rewrite IH; [|exact Hks | intro H; destruct (Hin H); [congruence | assumption]].
      destruct (in_dec U_eq_dec uid ks) as [Hi|Ho];
        destruct (in_dec U_eq_dec uid (k :: ks)) as [Hi'|Ho'];
        try (exfalso; simpl in *; tauto);
        cbn [groups_of map app]; rewrite positions_snoc;
        (destruct (U_eq_dec uid k); [congruence|]);
        rewrite app_nil_r; reflexivity.
Qed.

(** The loop, resumed after the prefix [pre], ends in the dictionary of the
    whole list. *)
Lemma group_indices_from (pre rest : list U) :
  group_indices U_eq_dec rest (length pre) (dict_of pre (keys_of pre))
  = dict_of (pre ++ rest) (keys_of (pre ++ rest)).
Proof.
  revert pre. induction rest as [|uid rest IH]; intro pre; simpl.
  - rewrite app_nil_r. reflexivity.
  - rewrite groups_append_dict;
      [|apply keys_NoDup | intro H; apply keys_In; exact H].
    rewrite <- keys_snoc.
    replace (S (length pre)) with (length (pre ++ [uid]))
      by (rewrite length_app; simpl; lia).
    rewrite IH, <- app_assoc. reflexivity.
Qed.

Lemma group_indices_dict (uids : list U) :
  group_indices U_eq_dec uids 0 [] = dict_of uids (keys_of uids).
Proof. exact (group_indices_from [] uids). Qed.

End GroupingFacts.

(** ** Fetching the groups and scoring them *)

Lemma take_raise (r : list Q) (idxs : list nat) (i : nat) :
  In i idxs -> (length r <= i)%nat -> NP.take r idxs = Raise IndexError.
Proof.
  induction idxs as [|j idxs IH]; intros Hin Hi; [destruct Hin|].
  simpl. destruct (nth_error r j) eqn:E; [|reflexivity].
  destruct Hin as [->|Hin].
  - apply nth_error_None in Hi. congruence.
  - rewrite IH by assumption. reflexivity.
Qed.





Section BatchFacts.

Variable U : Type.
Variable U_eq_dec : forall x y : U, {x = y} + {x <> y}.

Local Abbreviation positions := (positions_from U_eq_dec).
Local Abbreviation keys_of := (first_seen U_eq_dec).
Local Abbreviation dict_of := (groups_of U_eq_dec).
Local Abbreviation group := (Spec.group U_eq_dec).

Lemma group_cons (u x : U) (y : Q) (r : list Q) (l : list U) :
  group u (y :: r) (x :: l)
  = if U_eq_dec x u then y :: group u r l else group u r l.
Proof.
  unfold Spec.group. simpl. destruct (U_eq_dec x u); reflexivity.
Qed.

(** [r[idxs]] for the positions of [u] is the group of [u]: the rewards
    beyond [len(uids)] are never fetched. *)
Lemma take_positions (u : U) (l : list U) (pre r : list Q) :
  (length l <= length r)%nat ->
  NP.take (pre ++ r) (positions u l (length pre)) = Ok (group u r l).
Proof.
  revert pre r. induction l as [|x l IH]; intros pre r Hlen.
  - unfold Spec.group. destruct r; reflexivity.
  - destruct r as [|y r]; [simpl in Hlen; lia|].
    simpl in Hlen. rewrite group_cons.
    assert (NP.take (pre ++ y :: r) (positions u l (S (length pre)))
            = Ok (group u r l)) as Hrest.
    { replace (pre ++ y :: r) with ((pre ++ [y]) ++ r)
        by (rewrite <- app_assoc; reflexivity).
      replace (S (length pre)) with (length (pre ++ [y]))
        by (rewrite length_app; simpl; lia).
      apply IH. lia. }
    simpl. destruct (U_eq_dec x u); [|exact Hrest].
    simpl. rewrite nth_error_app2 by lia. rewrite Nat.sub_diag. simpl.
    rewrite Hrest. reflexivity.
Qed.

Lemma group_nonempty (u : U) (l : list U) (r : list Q) :
  In u l -> (length l <= length r)%nat -> group u r l <> [].
Proof.
  revert r. induction l as [|x l IH]; intros r Hin Hlen; [destruct Hin|].
  destruct r as [|y r]; [simpl in Hlen; lia|]. simpl in Hlen.
  rewrite group_cons. destruct (U_eq_dec x u) as [|Hne]; [discriminate|].
  apply IH; [|lia]. destruct Hin; [contradiction | assumption].
Qed.

(** The loop over the groups, when every index is in range. *)
Lemma s_list_dict (eps : Q) (r : list Q) (l keys : list U) :
  (length l <= length r)%nat -> (forall u, In u keys -> In u l) ->
  s_list_of eps r (dict_of l keys)
  = Ok (map (fun u => group_score eps (group u r l)) keys).
Proof.
  intros Hlen. induction keys as [|k ks IH]; intro Hin; [reflexivity|].
  cbn [groups_of map s_list_of].
  pose proof (take_positions k l [] r Hlen) as Ht.
  cbn [app length] in Ht. rewrite Ht. cbn [bind].
  pose proof (group_nonempty k l r (Hin k (or_introl eq_refl)) Hlen) as Hne.
  destruct (group k r l) as [|y rr] eqn:E; [congruence|].
  change (map (fun u => (u, positions u l 0)) ks) with (dict_of l ks).
  rewrite IH by (intros u Hu; apply Hin; right; exact Hu).
  reflexivity.
Qed.

(** The loop raises as soon as one group holds an index out of range. *)
Lemma s_list_raise (eps : Q) (r : list Q) (groups : list (U * list nat))
    (u : U) (idxs : list nat) (i : nat) :
  In (u, idxs) groups -> In i idxs -> (length r <= i)%nat ->
  s_list_of eps r groups = Raise IndexError.
Proof.
  intros Hg Hi Hr. induction groups as [|[k js] rest IH]; [destruct Hg|].
  cbn [s_list_of]. destruct Hg as [Heq|Hg].
  - injection Heq as -> ->. rewrite (take_raise r idxs i Hi Hr). reflexivity.
  - specialize (IH Hg). destruct (NP.take r js) as [rr|[]]; [|reflexivity].
    cbn [bind]. destruct rr; rewrite IH; reflexivity.
Qed.


End BatchFacts.

(** ** The freshly computed coefficient *)


Section ControllerFacts.

Variable U : Type.
Variable U_eq_dec : forall x y : U, {x = y} + {x <> y}.

Local Abbreviation update := (update_with_stats U_eq_dec).
Local Abbreviation fresh_beta := (compute_beta_t U_eq_dec).

(** [beta_t] reads the configuration only, never [value]. *)
Lemma compute_beta_t_config (self self' : DynamicBetaKLController)
    (r : list Q) (l : list U) :
  beta_min self' = beta_min self -> beta_max self' = beta_max self ->
  eps self' = eps self ->
  fresh_beta self' r l = fresh_beta self r l.
Proof.
  intros H1 H2 H3. unfold compute_beta_t. rewrite H1, H2, H3. reflexivity.
Qed.


(** With no more identifiers than rewards the computation completes. *)
Lemma compute_beta_t_total (self : DynamicBetaKLController)
    (r : list Q) (l : list U) :
  (length l <= length r)%nat -> exists bt, fresh_beta self r l = Ok bt.
Proof.
  intro Hlen. unfold compute_beta_t.
  rewrite group_indices_dict, s_list_dict;
    [|exact Hlen | intros u Hu; apply keys_In in Hu; exact Hu].
  cbn [bind]. eexists. reflexivity.
Qed.

(** With more identifiers than rewards the fetch of some group raises. *)
Lemma compute_beta_t_raise (self : DynamicBetaKLController)
    (r : list Q) (l : list U) :
  (length r < length l)%nat -> fresh_beta self r l = Raise IndexError.
Proof.
  intro Hlen. unfold compute_beta_t.
  destruct (nth_error l (length r)) as [v|] eqn:Ev;
    [|apply nth_error_None in Ev; lia].
  rewrite (s_list_raise U (eps self) r _ v
             (positions_from U_eq_dec v l 0) (length r)); [reflexivity | | |lia].
  - rewrite group_indices_dict. unfold groups_of.
    apply (in_map (fun u => (u, positions_from U_eq_dec u l 0))).
    apply keys_In. eapply nth_error_In. exact Ev.
  - apply (positions_at U U_eq_dec v l 0 (length r)). exact Ev.
Qed.

(** Only the first [len(uids)] rewards are read. *)
Lemma compute_beta_t_firstn (self : DynamicBetaKLController)
    (r : list Q) (l : list U) :
  (length l <= length r)%nat ->
  fresh_beta self r l = fresh_beta self (firstn (length l) r) l.
Proof.
  intro Hlen. unfold compute_beta_t.
  rewrite group_indices_dict.
  rewrite !s_list_dict;
    try (intros u Hu; apply keys_In in Hu; exact Hu);
    [|rewrite length_firstn; lia | exact Hlen].
  unfold Spec.group. rewrite <- combine_firstn_r. reflexivity.
Qed.


End ControllerFacts.

(** ** Degenerate and balanced groups *)







(** * The claims of the specification *)

Section Claims.

Variable U : Type.
Variable U_eq_dec : forall x y : U, {x = y} + {x <> y}.

Local Abbreviation update := (update_with_stats U_eq_dec).
Local Abbreviation fresh_beta := (compute_beta_t U_eq_dec).

(** [update_with_stats] never writes the configuration. *)
Lemma update_config (st st' : DynamicBetaKLController)
    (r : list Q) (l : list U) :
  update st r l = Ok st' ->
  beta_min st' = beta_min st /\ beta_max st' = beta_max st
  /\ eps st' = eps st /\ ema_alpha st' = ema_alpha st.
Proof.
  unfold update_with_stats. destruct r as [|y r].
  - intro H. injection H as <-. repeat split.
  - destruct (fresh_beta st (y :: r) l) as [bt|]; [|discriminate].
    cbn [bind]. destruct (ema_alpha st) eqn:Ea; intro H; injection H as <-;
      repeat split; exact Ea.
Qed.




(** C4.  An update with an empty batch of rewards returns the controller it
    was given: [value] and every other field are unchanged. *)
Theorem update_empty_batch_noop
    (self : DynamicBetaKLController) (uids : list U) :
  update self [] uids = Ok self.
Proof. reflexivity. Qed.

(** C7 (amended).  [update_with_stats] has no length check.  On non-empty
    rewards, with fewer identifiers than rewards it completes without an
    error and computes [beta_t] from the first [len(uids)] rewards only; with
    more identifiers than rewards it raises the [IndexError] of the group
    fetch [r[idxs]]. *)
Theorem update_length_mismatch
    (self : DynamicBetaKLController) (rewards : list Q) (uids : list U) :
  rewards <> [] ->
  ((length uids < length rewards)%nat ->
     (exists st', update self rewards uids = Ok st')
     /\ fresh_beta self rewards uids
        = fresh_beta self (firstn (length uids) rewards) uids)
  /\ ((length rewards < length uids)%nat ->
        update self rewards uids = Raise IndexError).
Proof.
  intro Hne. destruct rewards as [|y r]; [congruence|]. split; intro Hlen.
  - split; [|apply compute_beta_t_firstn; lia].
    destruct (compute_beta_t_total U U_eq_dec self (y :: r) uids) as [bt Hbt];
      [lia|].
    unfold update_with_stats. rewrite Hbt. cbn [bind].
    destruct (ema_alpha self); eexists; reflexivity.
  - unfold update_with_stats.
    rewrite compute_beta_t_raise by exact Hlen. reflexivity.
Qed.

(** C8 (amended).  Construction validates nothing: for every [beta_min],
    [beta_max], [eps] and [ema_alpha] it returns a controller holding the
    arguments as given, with [value = beta_max]; and no later update checks
    the configuration either: on aligned rewards and identifiers it
    completes. *)
Theorem init_never_fails
    (bmin bmax e : Q) (a : option Q) (rewards : list Q) (uids : list U) :
  __init__ bmin bmax e a
  = Ok {| beta_min := bmin; beta_max := bmax; eps := e; ema_alpha := a;
          value := Fin bmax |}
  /\ (length rewards = length uids ->
      forall st, __init__ bmin bmax e a = Ok st ->
                 exists st', update st rewards uids = Ok st').
Proof.
  split; [reflexivity|]. intros Hlen st _.
  unfold update_with_stats. destruct rewards as [|y r]; [eexists; reflexivity|].
  destruct (compute_beta_t_total U U_eq_dec st (y :: r) uids) as [bt ->]; [lia|].
  cbn [bind]. destruct (ema_alpha st); eexists; reflexivity.
Qed.


(** C10.  With [ema_alpha] unset: on an aligned batch the update completes;
    whenever an update completes, repeating it with the same batch gives the
    same controller again, so [value] is the same after the first and after
    the second call; and for a non-empty batch the resulting [value] is the
    same from every starting controller with that configuration. *)
Theorem update_idempotent_without_ema
    (self : DynamicBetaKLController) (rewards : list Q) (uids : list U) :
  ema_alpha self = None ->
  (length rewards = length uids ->
   exists st1, update self rewards uids = Ok st1)
  /\ forall st1,
      update self rewards uids = Ok st1 ->
      update st1 rewards uids = Ok st1
      /\ (rewards <> [] ->
          forall self',
            beta_min self' = beta_min self -> beta_max self' = beta_max self ->
            eps self' = eps self -> ema_alpha self' = None ->
            exists st1', update self' rewards uids = Ok st1'
                         /\ value st1' = value st1).
Proof.
  intros Hema. unfold update_with_stats. split.
  - intro Hlen. destruct rewards as [|y r]; [eexists; reflexivity|].
    destruct (compute_beta_t_total U U_eq_dec self (y :: r) uids) as [bt ->];
      [lia|].
    rewrite Hema. cbn [bind]. eexists. reflexivity.
  - intros st1 H1. destruct rewards as [|y r].
    + injection H1 as <-. split; [reflexivity | congruence].
    + destruct (fresh_beta self (y :: r) uids) as [bt|] eqn:Hbt; [|discriminate].
      rewrite Hema in H1. cbn [bind] in H1. injection H1 as <-.
      rewrite (compute_beta_t_config U U_eq_dec self (set_value self bt))
        by reflexivity.
      rewrite Hbt. cbn [bind ema_alpha set_value]. rewrite Hema.
      split; [reflexivity|].
      intros _ self' H1 H2 H3 H4.
      rewrite (compute_beta_t_config U U_eq_dec self self') by assumption.
      rewrite Hbt, H4. cbn [bind]. eexists. split; reflexivity.
Qed.

End Claims.



Section Scenarios.

Variable U : Type.
Variable U_eq_dec : forall x y : U, {x = y} + {x <> y}.


Lemma one_group_of_four (u : U) :
  group_indices U_eq_dec [u; u; u; u] 0 [] = [(u, [0; 1; 2; 3]%nat)].
Proof.
  cbn. repeat (destruct (U_eq_dec u u) as [_|]; [cbn | congruence]).
  reflexivity.
Qed.

(** C3.  With [beta_min = 0], [beta_max = 1], [eps = 1e-8] and no
    smoothing, one update on the single group [1, 1, -1, -1] has [p = 1/2],
    [pos_sum = 2], [n_eff = 2], [tilde_n = 1/2], [s_p = 1], group score
    [1/2], [s_batch = 1/2], and leaves [value = 1/2]. *)
Theorem concrete_scenario (u : U) :
  let rr := [1; 1; -1; -1] in
  let g := centered rr in
  let pos := NP.clip_lo 0 g in
  NP.frac_pos g == 1 # 2
  /\ NP.qsum pos == 2
  /\ is_real (n_eff (weights pos (NP.qsum pos))) 2
  /\ is_real (tilde_n default_eps pos (length rr)) (1 # 2)
  /\ s_p (NP.frac_pos g) == 1
  /\ is_real (group_score default_eps rr) (1 # 2)
  /\ s_list_of default_eps rr (group_indices U_eq_dec [u; u; u; u] 0 [])
     = Ok [group_score default_eps rr]
  /\ is_real (s_batch_of [group_score default_eps rr]) (1 # 2)
  /\ exists st st',
      __init__ 0 1 default_eps None = Ok st
      /\ update_with_stats U_eq_dec st rr [u; u; u; u] = Ok st'
      /\ is_real (value st') (1 # 2).
Proof.
  cbv zeta. rewrite one_group_of_four.
  repeat (split; [vm_compute; reflexivity|]).
  eexists. eexists. split; [reflexivity|].
  unfold update_with_stats, compute_beta_t. rewrite one_group_of_four.
  split; [reflexivity|]. vm_compute. reflexivity.
Qed.


End Scenarios.

(** * Instances on concrete batches

    Identifiers are natural numbers here. *)



Lemma update_length_mismatch_witness :
  ((length [0; 0]%nat < length [1; -1; 5]%Q)%nat ->
     (exists st', update_with_stats Nat.eq_dec plain_controller
                    [1; -1; 5] [0; 0]%nat = Ok st')
     /\ compute_beta_t Nat.eq_dec plain_controller [1; -1; 5] [0; 0]%nat
        = compute_beta_t Nat.eq_dec plain_controller
            (firstn (length [0; 0]%nat) [1; -1; 5]) [0; 0]%nat)
  /\ ((length [1; -1; 5]%Q < length [0; 0]%nat)%nat ->
        update_with_stats Nat.eq_dec plain_controller [1; -1; 5] [0; 0]%nat
        = Raise IndexError).
Proof.
  apply (update_length_mismatch nat Nat.eq_dec plain_controller
           [1; -1; 5] [0; 0]%nat).
  discriminate.
Defined.

Lemma init_never_fails_witness :
  __init__ 1 0 default_eps (Some 2)
  = Ok {| beta_min := 1; beta_max := 0; eps := default_eps;
          ema_alpha := Some 2; value := Fin 0 |}
  /\ (length [1; -1] = length [0; 0]%nat ->
      forall st, __init__ 1 0 default_eps (Some 2) = Ok st ->
                 exists st', update_with_stats Nat.eq_dec st [1; -1] [0; 0]%nat
                             = Ok st').
Proof.
  exact (init_never_fails nat Nat.eq_dec 1 0 default_eps (Some 2)
           [1; -1] [0; 0]%nat).
Defined.


Lemma update_idempotent_without_ema_witness :
  (length [1; 1; -1; -1] = length [0; 0; 0; 0]%nat ->
   exists st1,
     update_with_stats Nat.eq_dec plain_controller
       [1; 1; -1; -1] [0; 0; 0; 0]%nat = Ok st1)
  /\ forall st1,
      update_with_stats Nat.eq_dec plain_controller
        [1; 1; -1; -1] [0; 0; 0; 0]%nat = Ok st1 ->
      update_with_stats Nat.eq_dec st1 [1; 1; -1; -1] [0; 0; 0; 0]%nat = Ok st1
      /\ ([1; 1; -1; -1] <> [] ->
          forall self',
            beta_min self' = beta_min plain_controller ->
            beta_max self' = beta_max plain_controller ->
            eps self' = eps plain_controller -> ema_alpha self' = None ->
            exists st1',
              update_with_stats Nat.eq_dec self'
                [1; 1; -1; -1] [0; 0; 0; 0]%nat = Ok st1'
              /\ value st1' = value st1).
Proof.
  apply (update_idempotent_without_ema nat Nat.eq_dec plain_controller
           [1; 1; -1; -1] [0; 0; 0; 0]%nat); reflexivity.
Defined.



(** ** Where the code departs from the specification *)


(** C7 as stated fails: three rewards with two identifiers is accepted
    without any error; the third reward is ignored and [value] becomes
    [1/2], the coefficient of the batch [1, -1]. *)
Lemma length_mismatch_counterexample :
  length [1; -1; 5] <> length [0; 0]%nat
  /\ exists st',
      update_with_stats Nat.eq_dec plain_controller [1; -1; 5] [0; 0]%nat
      = Ok st'
      /\ is_real (value st') (1 # 2)
      /\ update_with_stats Nat.eq_dec plain_controller [1; -1] [0; 0]%nat
         = Ok st'.
Proof.
  split; [discriminate|]. eexists. split; [reflexivity|].
  split; [vm_compute; reflexivity|]. reflexivity.
Qed.

(** C8 as stated fails: [beta_min = 1 > beta_max = 0] with [ema_alpha = 2]
    constructs a controller, and no error is raised. *)
Lemma invalid_config_counterexample :
  0 < 1 /\ ~ (0 <= 2 <= 1)
  /\ (exists st, __init__ 1 0 default_eps (Some 2) = Ok st)
  /\ forall e, __init__ 1 0 default_eps (Some 2) <> Raise e.
Proof.
  split; [reflexivity|]. split; [intros [_ H]; vm_compute in H; congruence|].
  split; [eexists; reflexivity | discriminate].
Qed.

(** With [eps] negative the guard lets a zero [pos_sum] through: the weights
    are 0/0 and [value] becomes nan.  The hypothesis [0 <= eps] of the
    theorems above excludes this configuration. *)
Example negative_eps_gives_nan :
  update_with_stats Nat.eq_dec
    {| beta_min := 0; beta_max := 1; eps := -1; ema_alpha := None;
       value := Fin 1 |}
    [2; 2; 2] [0; 0; 0]%nat
  = Ok {| beta_min := 0; beta_max := 1; eps := -1; ema_alpha := None;
          value := NaN |}.
Proof. reflexivity. Qed.

(** * Further properties of the controller *)

(** ** Bounds on the effective sample size and on the score *)












(** The bound [16/27] is attained by the group [1, 1, 0]. *)
Example score_bound_attained :
  is_real (group_score default_eps [1; 1; 0]) (16 # 27).
Proof. vm_compute. reflexivity. Qed.

(** ** The coefficient is never clipped *)


Section CoefficientRange.

Variable U : Type.
Variable U_eq_dec : forall x y : U, {x = y} + {x <> y}.





End CoefficientRange.

(** ** The groups the loop builds *)


Section GroupStructure.

Variable U : Type.
Variable U_eq_dec : forall x y : U, {x = y} + {x <> y}.

Lemma positions_sound (u : U) (l : list U) (i j : nat) :
  In j (positions_from U_eq_dec u l i) -> nth_error l (j - i) = Some u.
Proof.
  revert i. induction l as [|x l IH]; intros i; simpl; [tauto|].
  destruct (U_eq_dec x u) as [->|_].
  - intros [<-|H]; [rewrite Nat.sub_diag; reflexivity|].
    pose proof (positions_range U U_eq_dec _ _ _ _ H) as Hr.
    apply IH in H. replace (j - i)%nat with (S (j - S i)) by lia. exact H.
  - intro H. pose proof (positions_range U U_eq_dec _ _ _ _ H) as Hr.
    apply IH in H. replace (j - i)%nat with (S (j - S i)) by lia. exact H.
Qed.

Lemma positions_sorted (u : U) (l : list U) (i : nat) :
  StronglySorted lt (positions_from U_eq_dec u l i).
Proof.
  revert i. induction l as [|x l IH]; intro i; simpl; [constructor|].
  destruct (U_eq_dec x u); [|apply IH].
  constructor; [apply IH|]. apply Forall_forall. intros j Hj.
  apply positions_range in Hj. lia.
Qed.

Lemma dict_keys (l keys : list U) :
  map fst (groups_of U_eq_dec l keys) = keys.
Proof.
  unfold groups_of. rewrite map_map. simpl. apply map_id.
Qed.

Lemma dict_entry (l keys : list U) (u : U) (idxs : list nat) :
  In (u, idxs) (groups_of U_eq_dec l keys) ->
  In u keys /\ idxs = positions_from U_eq_dec u l 0.
Proof.
  unfold groups_of. intro H. apply in_map_iff in H.
  destruct H as [k [Hk Hin]]. injection Hk as -> <-. auto.
Qed.

(** X5.  The grouping loop partitions the batch positions by identifier:
    the keys of [groups] are distinct; each key holds a non-empty, strictly
    increasing list of exactly the positions that carry it; and every
    position of [uids] is in the list of its identifier.  So the [G == 0]
    guard of the scoring loop can never fire on a completed fetch. *)
Theorem grouping_partitions_positions (uids : list U) :
  let groups := group_indices U_eq_dec uids 0 [] in
  NoDup (map fst groups)
  /\ (forall u idxs,
        In (u, idxs) groups ->
        idxs <> [] /\ StronglySorted lt idxs
        /\ forall i, In i idxs <-> nth_error uids i = Some u)
  /\ (forall i u,
        nth_error uids i = Some u ->
        exists idxs, In (u, idxs) groups /\ In i idxs).
Proof.
  cbv zeta. rewrite group_indices_dict. split; [|split].
  - rewrite dict_keys. apply keys_NoDup.
  - intros u idxs H. apply dict_entry in H. destruct H as [Hk ->].
    apply keys_In in Hk. split; [|split].
    + destruct (In_nth_error _ _ Hk) as [k Hnth].
      pose proof (positions_at U U_eq_dec u uids 0 k Hnth) as Hin.
      intro E. rewrite E in Hin. destruct Hin.
    + apply positions_sorted.
    + intro i. split.
      * intro H. apply positions_sound in H. rewrite Nat.sub_0_r in H. exact H.
      * intro H. exact (positions_at U U_eq_dec u uids 0 i H).
  - intros i u H. exists (positions_from U_eq_dec u uids 0). split.
    + unfold groups_of.
      apply (in_map (fun u => (u, positions_from U_eq_dec u uids 0))).
      apply keys_In. eapply nth_error_In. exact H.
    + exact (positions_at U U_eq_dec u uids 0 i H).
Qed.





End GroupStructure.

(** ** Batches without signal *)

Section DegenerateBatches.

Variable U : Type.
Variable U_eq_dec : forall x y : U, {x = y} + {x <> y}.






End DegenerateBatches.

(** ** Closed forms of the score *)












(** ** Invariance of the coefficient *)















Section Invariance.

Variable U : Type.
Variable U_eq_dec : forall x y : U, {x = y} + {x <> y}.






End Invariance.

(** ** Repeated updates and the configuration *)

Section Sequences.

Variable U : Type.
Variable U_eq_dec : forall x y : U, {x = y} + {x <> y}.


(** X15.  No sequence of completed updates changes the configuration:
    [beta_min], [beta_max], [eps] and [ema_alpha] stay as constructed; only
    [value] is ever written. *)
Theorem configuration_never_changes (st0 st : DynamicBetaKLController) :
  reachable U_eq_dec st0 st ->
  beta_min st = beta_min st0 /\ beta_max st = beta_max st0
  /\ eps st = eps st0 /\ ema_alpha st = ema_alpha st0.
Proof.
  induction 1 as [|st r l st' _ [H1 [H2 [H3 H4]]] Hup]; [auto|].
  pose proof (update_config U U_eq_dec _ _ _ _ Hup) as [C1 [C2 [C3 C4]]].
  repeat split; congruence.
Qed.

End Sequences.

(** ** Instances of the further properties *)













Lemma configuration_never_changes_witness :
  beta_min smoothed_after_update = beta_min smoothed_controller
  /\ beta_max smoothed_after_update = beta_max smoothed_controller
  /\ eps smoothed_after_update = eps smoothed_controller
  /\ ema_alpha smoothed_after_update = ema_alpha smoothed_controller.
Proof.
  apply (configuration_never_changes nat Nat.eq_dec smoothed_controller
           smoothed_after_update).
  apply (reach_update Nat.eq_dec smoothed_controller smoothed_controller
           [1; 1; -1; -1] [0; 0; 0; 0]%nat smoothed_after_update).
  - apply reach_start.
  - vm_compute. reflexivity.
Defined.

(** * Properties of the answer extraction and of the scoring *)

(** ** The scan for boxed answers *)

Lemma drop_prefix_app (p s rest : Reward.str) :
  Reward.drop_prefix p s = Some rest -> s = p ++ rest.
Proof.
  revert s. induction p as [|a p IH]; intros s H; simpl in H.
  - injection H as <-. reflexivity.
  - destruct s as [|b s]; [discriminate|].
    destruct (N.eqb a b) eqn:E; [|discriminate].
    apply N.eqb_eq in E. subst b. simpl. f_equal. apply IH. exact H.
Qed.

Lemma drop_prefix_self (p rest : Reward.str) :
  Reward.drop_prefix p (p ++ rest) = Some rest.
Proof.
  induction p as [|a p IH]; [reflexivity|].
  cbn [app Reward.drop_prefix]. rewrite N.eqb_refl. exact IH.
Qed.

Lemma until_close_split (s content rest : Reward.str) :
  Reward.until_close s = Some (content, rest) ->
  s = content ++ Reward.close_brace :: rest /\ ~ In Reward.close_brace content.
Proof.
  revert content. induction s as [|c s IH]; intros content H; simpl in H.
  - discriminate.
  - destruct (N.eqb c Reward.close_brace) eqn:E.
    + apply N.eqb_eq in E. injection H as <- <-. subst c. split; [reflexivity|].
      intros [].
    + destruct (Reward.until_close s) as [[c' r']|]; [|discriminate].
      injection H as <- <-. destruct (IH c' eq_refl) as [-> Hn].
      split; [reflexivity|]. intros [Hc|Hc]; [|contradiction].
      subst c. rewrite N.eqb_refl in E. discriminate.
Qed.

Lemma until_close_found (content rest : Reward.str) :
  ~ In Reward.close_brace content ->
  Reward.until_close (content ++ Reward.close_brace :: rest)
  = Some (content, rest).
Proof.
  induction content as [|c content IH]; intro Hn;
    cbn [app Reward.until_close].
  - rewrite N.eqb_refl. reflexivity.
  - destruct (N.eqb c Reward.close_brace) eqn:E.
    + apply N.eqb_eq in E. exfalso. apply Hn. left. exact E.
    + rewrite IH; [reflexivity|]. intro H. apply Hn. right. exact H.
Qed.

Lemma until_close_some (s : Reward.str) :
  In Reward.close_brace s -> exists m, Reward.until_close s = Some m.
Proof.
  induction s as [|c s IH]; intro H; [destruct H|].
  cbn [Reward.until_close].
  destruct (N.eqb c Reward.close_brace) eqn:E; [eexists; reflexivity|].
  destruct H as [H|H]; [subst c; rewrite N.eqb_refl in E; discriminate|].
  destruct (IH H) as [[c' r'] ->]. eexists. reflexivity.
Qed.

(** The scan, unfolded one step. *)
Lemma findall_boxed_cons (c : N) (s : Reward.str) :
  Reward.findall_boxed (c :: s)
  = match Reward.match_boxed (c :: s) with
    | Some (content, rest) => content :: Reward.findall_boxed rest
    | None => Reward.findall_boxed s
    end.
Proof.
  refine (Reward.findall_boxed_elim
           (fun text r =>
              match text with
              | [] => True
              | c :: s =>
                  r = match Reward.match_boxed (c :: s) with
                      | Some (content, rest) =>
                          content :: Reward.findall_boxed rest
                      | None => Reward.findall_boxed s
                      end
              end) I _ _ (c :: s)).
  - intros c' s' content rest E _ _. rewrite E. reflexivity.
  - intros c' s' E _ _. rewrite E. reflexivity.
Qed.

(** A text with no closing brace, or no backslash, has no match. *)
Lemma match_boxed_needs_backslash (c : N) (s : Reward.str) :
  c <> Reward.backslash -> Reward.match_boxed (c :: s) = None.
Proof.
  intro H. unfold Reward.match_boxed.
  replace Reward.boxed_open with (Reward.backslash :: tl Reward.boxed_open)
    by reflexivity.
  cbn [Reward.drop_prefix].
  destruct (N.eqb Reward.backslash c) eqn:E; [|reflexivity].
  apply N.eqb_eq in E. exfalso. apply H. symmetry. exact E.
Qed.

(** A complete box anywhere in the text gives at least one match. *)
Lemma findall_boxed_nonempty (pre content post : Reward.str) :
  Reward.findall_boxed
    (pre ++ Reward.boxed_open ++ content ++ Reward.close_brace :: post) <> [].
Proof.
  induction pre as [|c pre IH].
  - cbn [app].
    change (Reward.boxed_open ++ content ++ Reward.close_brace :: post)
      with (Reward.backslash
            :: tl Reward.boxed_open ++ content ++ Reward.close_brace :: post).
    rewrite findall_boxed_cons.
    change (Reward.backslash
            :: tl Reward.boxed_open ++ content ++ Reward.close_brace :: post)
      with (Reward.boxed_open ++ content ++ Reward.close_brace :: post).
    unfold Reward.match_boxed. rewrite drop_prefix_self.
    destruct (until_close_some (content ++ Reward.close_brace :: post))
      as [[c' r'] ->]; [|discriminate].
    apply in_or_app. right. left. reflexivity.
  - cbn [app]. rewrite findall_boxed_cons.
    destruct (Reward.match_boxed _) as [[c' r']|]; [discriminate | exact IH].
Qed.

(** Every match is a complete box of the text. *)
Lemma findall_boxed_sound (text : Reward.str) :
  Reward.findall_boxed text <> [] ->
  exists pre content post,
    text = pre ++ Reward.boxed_open ++ content ++ Reward.close_brace :: post.
Proof.
  induction text as [|c s IH]; [intro H; exfalso; apply H; reflexivity|].
  rewrite findall_boxed_cons.
  destruct (Reward.match_boxed (c :: s)) as [[content rest]|] eqn:E.
  - intros _. unfold Reward.match_boxed in E.
    destruct (Reward.drop_prefix Reward.boxed_open (c :: s)) as [after|] eqn:Ed;
      [|discriminate].
    apply drop_prefix_app in Ed. apply until_close_split in E.
    destruct E as [-> _]. exists [], content, rest. exact Ed.
  - intro H. destruct (IH H) as [pre [content [post ->]]].
    exists (c :: pre), content, post. reflexivity.
Qed.

Lemma findall_boxed_no_close (text m : Reward.str) :
  In m (Reward.findall_boxed text) -> ~ In Reward.close_brace m.
Proof.
  revert m.
  refine (Reward.findall_boxed_elim
            (fun _ r => forall m, In m r -> ~ In Reward.close_brace m)
            _ _ _ text).
  - intros m [].
  - intros c s content rest E IH _ m [<-|Hm]; [|apply IH; exact Hm].
    unfold Reward.match_boxed in E.
    destruct (Reward.drop_prefix Reward.boxed_open (c :: s)); [|discriminate].
    apply until_close_split in E. tauto.
  - intros c s _ IH _. exact IH.
Qed.

Lemma last_In {A : Type} (l : list A) (d : A) : l <> [] -> In (last l d) l.
Proof.
  induction l as [|x l IH]; [congruence|]. intros _.
  destruct l as [|y l]; [left; reflexivity|].
  right. apply IH. discriminate.
Qed.

(** The scan of a text made of plain runs and boxes finds the boxes. *)
Lemma findall_boxed_render (segs : list segment) :
  Forall well_formed segs -> Reward.findall_boxed (render segs) = boxes segs.
Proof.
  induction 1 as [|seg segs Hwf _ IH]; [reflexivity|].
  destruct seg as [s|content]; cbn [render boxes well_formed] in *.
  - induction s as [|c s IHs]; [exact IH|].
    cbn [app]. rewrite findall_boxed_cons, match_boxed_needs_backslash.
    + apply IHs. intro H. apply Hwf. right. exact H.
    + intro H. apply Hwf. left. exact H.
  - change (Reward.boxed_open ++ content ++ Reward.close_brace :: render segs)
      with (Reward.backslash
            :: tl Reward.boxed_open ++ content ++ Reward.close_brace :: render segs).
    rewrite findall_boxed_cons.
    change (Reward.backslash
            :: tl Reward.boxed_open ++ content ++ Reward.close_brace :: render segs)
      with (Reward.boxed_open ++ content ++ Reward.close_brace :: render segs).
    unfold Reward.match_boxed.
    rewrite drop_prefix_self, (until_close_found _ _ Hwf), IH. reflexivity.
Qed.

Lemma str_eqb_sym (a b : Reward.str) : Reward.str_eqb a b = Reward.str_eqb b a.
Proof.
  unfold Reward.str_eqb.
  destruct (list_eq_dec N.eq_dec a b); destruct (list_eq_dec N.eq_dec b a);
    congruence.
Qed.

Lemma str_eqb_refl (a : Reward.str) : Reward.str_eqb a a = true.
Proof.
  unfold Reward.str_eqb. destruct (list_eq_dec N.eq_dec a a); congruence.
Qed.

Section ExtractionFacts.

Variable isspace : N -> bool.
Variable last_line : Reward.str -> option Reward.str.
Variable normalize : Reward.str -> Reward.str.
Variable parse_full_int : Reward.str -> Reward.outcome (option Reward.str).

Local Abbreviation lstrip := (Reward.lstrip isspace).
Local Abbreviation rstrip := (Reward.rstrip isspace).
Local Abbreviation strip := (Reward.strip isspace).
Local Abbreviation extract_boxed := (Reward._extract_boxed_anywhere isspace).
Local Abbreviation extract :=
  (Reward._extract_by_source isspace last_line).
Local Abbreviation compare := (Reward._compare_pred_gt normalize parse_full_int).
Local Abbreviation score :=
  (Reward.compute_score isspace last_line normalize parse_full_int).

Lemma lstrip_head (s t : Reward.str) (c : N) :
  lstrip s = c :: t -> isspace c = false.
Proof.
  induction s as [|x s IH]; simpl; [discriminate|].
  destruct (isspace x) eqn:E; [exact IH|].
  intro H. injection H as -> _. exact E.
Qed.

Lemma lstrip_suffix (s : Reward.str) : exists pre, s = pre ++ lstrip s.
Proof.
  induction s as [|x s [pre IH]]; [exists []; reflexivity|]. simpl.
  destruct (isspace x); [|exists []; reflexivity].
  exists (x :: pre). simpl. f_equal. exact IH.
Qed.

Lemma rstrip_prefix (s : Reward.str) : exists post, s = rstrip s ++ post.
Proof.
  unfold Reward.rstrip. destruct (lstrip_suffix (rev s)) as [pre H].
  exists (rev pre). rewrite <- rev_app_distr, <- H, rev_involutive.
  reflexivity.
Qed.

Lemma rstrip_last (s t : Reward.str) (c : N) :
  rstrip s = t ++ [c] -> isspace c = false.
Proof.
  unfold Reward.rstrip. intro H. apply (f_equal (@rev N)) in H.
  rewrite rev_involutive, rev_app_distr in H. simpl in H.
  exact (lstrip_head _ _ _ H).
Qed.

Lemma strip_In (s : Reward.str) (x : N) : In x (strip s) -> In x s.
Proof.
  unfold Reward.strip. intro H.
  destruct (rstrip_prefix (lstrip s)) as [post Hp].
  destruct (lstrip_suffix s) as [pre Hs].
  rewrite Hs, Hp. apply in_or_app. right. apply in_or_app. left. exact H.
Qed.

(** X16.  A boxed answer returned by [_extract_boxed_anywhere] holds no
    closing brace and has no whitespace at either end. *)
Theorem boxed_answer_is_clean (text r : Reward.str) :
  extract_boxed text = Some r ->
  ~ In Reward.close_brace r
  /\ (forall c t, r = c :: t -> isspace c = false)
  /\ (forall t c, r = t ++ [c] -> isspace c = false).
Proof.
  unfold Reward._extract_boxed_anywhere. cbv zeta.
  destruct (Reward.findall_boxed text) as [|m ms] eqn:E; [discriminate|].
  assert (In (last (m :: ms) []) (Reward.findall_boxed text)) as Hlast
    by (rewrite E; apply last_In; discriminate).
  generalize dependent (last (m :: ms) []). intros b Hlast H.
  injection H as <-. split; [|split].
  - intro Hin. apply strip_In in Hin.
    exact (findall_boxed_no_close text b Hlast Hin).
  - intros c t H. unfold Reward.strip in H.
    destruct (rstrip_prefix (lstrip b)) as [post Hp].
    rewrite H in Hp. simpl in Hp. exact (lstrip_head _ _ _ Hp).
  - intros t c H. unfold Reward.strip in H. exact (rstrip_last _ _ _ H).
Qed.

(** X17.  [_extract_boxed_anywhere] returns [None] exactly when the text
    holds no [\boxed{] that is followed, somewhere later, by a closing
    brace. *)
Theorem boxed_none_iff_no_box (text : Reward.str) :
  extract_boxed text = None
  <-> ~ exists pre content post,
        text = pre ++ Reward.boxed_open ++ content
               ++ Reward.close_brace :: post.
Proof.
  unfold Reward._extract_boxed_anywhere. cbv zeta. split.
  - intros H [pre [content [post ->]]].
    pose proof (findall_boxed_nonempty pre content post) as Hne.
    destruct (Reward.findall_boxed _); [congruence | discriminate].
  - intro Hno. destruct (Reward.findall_boxed text) as [|m ms] eqn:E;
      [reflexivity|].
    exfalso. apply Hno. apply findall_boxed_sound. rewrite E. discriminate.
Qed.

(** X18.  In a text made of runs without backslash and of boxes
    [\boxed{content}] (no closing brace in [content]), the scan finds exactly
    the boxes, in order, and [_extract_boxed_anywhere] returns the content of
    the last box, stripped; with no box it returns [None]. *)
Theorem last_box_wins (segs : list segment) :
  Forall well_formed segs ->
  Reward.findall_boxed (render segs) = boxes segs
  /\ extract_boxed (render segs)
     = match boxes segs with
       | [] => None
       | _ :: _ => Some (strip (last (boxes segs) []))
       end.
Proof.
  intro Hwf. pose proof (findall_boxed_render segs Hwf) as H.
  split; [exact H|]. unfold Reward._extract_boxed_anywhere. cbv zeta.
  rewrite H. reflexivity.
Qed.

Lemma compare_sym (a b : Reward.str) : compare a b = compare b a.
Proof.
  unfold Reward._compare_pred_gt.
  destruct (parse_full_int a) as [[pa|]|]; destruct (parse_full_int b) as [[pb|]|];
    try reflexivity; f_equal; apply str_eqb_sym.
Qed.

(** X19.  [compute_score] is symmetric in the solution text and a string
    ground truth: swapping them gives the same score, or the same
    [ValueError]. *)
Theorem compute_score_symmetric (data_source a b : Reward.str) :
  score data_source a (Reward.GtStr b) = score data_source b (Reward.GtStr a).
Proof.
  unfold Reward.compute_score. cbv zeta.
  destruct (extract a data_source) as [pa|];
    destruct (extract b data_source) as [pb|]; try reflexivity.
  rewrite (compare_sym pa pb). reflexivity.
Qed.

(** X20.  A solution text scored against itself, as a string or as the
    "ground_truth" entry of a dict, gets 1.0 as soon as an answer can be
    extracted from it and [_parse_full_int] accepts that answer; with no
    extractable answer the score is 0.0 against every ground truth. *)
Theorem compute_score_on_itself (data_source s x : Reward.str)
    (r : option Reward.str) :
  (extract s data_source = Some x -> parse_full_int x = Reward.Return r ->
   score data_source s (Reward.GtStr s) = Reward.Return 1
   /\ score data_source s (Reward.GtDict (Some s)) = Reward.Return 1)
  /\ (extract s data_source = None ->
      forall gt, score data_source s gt = Reward.Return 0).
Proof.
  unfold Reward.compute_score. cbv zeta. split.
  - intros Hx Hr. rewrite Hx. unfold Reward._compare_pred_gt. rewrite Hr.
    destruct r; rewrite str_eqb_refl; split; reflexivity.
  - intros Hx gt. rewrite Hx. reflexivity.
Qed.

End ExtractionFacts.

(** ** Instances of the extraction properties *)

Lemma boxed_answer_is_clean_witness :
  ~ In Reward.close_brace sample_answer
  /\ (forall c t, sample_answer = c :: t -> blank_only c = false)
  /\ (forall t c, sample_answer = t ++ [c] -> blank_only c = false).
Proof.
  apply (boxed_answer_is_clean blank_only sample_solution sample_answer).
  vm_compute. reflexivity.
Defined.

Lemma last_box_wins_witness :
  Reward.findall_boxed (render sample_segments) = boxes sample_segments
  /\ Reward._extract_boxed_anywhere blank_only (render sample_segments)
     = match boxes sample_segments with
       | [] => None
       | _ :: _ =>
           Some (Reward.strip blank_only (last (boxes sample_segments) []))
       end.
Proof.
  apply (last_box_wins blank_only sample_segments).
  repeat constructor; vm_compute; intro H;
    repeat (destruct H as [H|H]; [discriminate|]); exact H.
Defined.

Lemma compute_score_on_itself_witness :
  (Reward._extract_by_source blank_only no_last_line sample_solution openscience
   = Some sample_answer ->
   no_integer sample_answer = Reward.Return None ->
   Reward.compute_score blank_only no_last_line keep_text no_integer
     openscience sample_solution (Reward.GtStr sample_solution)
   = Reward.Return 1
   /\ Reward.compute_score blank_only no_last_line keep_text no_integer
        openscience sample_solution (Reward.GtDict (Some sample_solution))
      = Reward.Return 1)
  /\ (Reward._extract_by_source blank_only no_last_line sample_solution
        openscience = None ->
      forall gt,
        Reward.compute_score blank_only no_last_line keep_text no_integer
          openscience sample_solution gt = Reward.Return 0).
Proof.
  exact (compute_score_on_itself blank_only no_last_line keep_text no_integer
           openscience sample_solution sample_answer None).
Defined.
